(** * flocker.control.testtools

    A shallow embedding of [flocker/control/testtools.py]: the conformance
    suite for [IStatePersister] providers, the helper that wires a
    [ControlAMPService] for tests, and the hypothesis strategies that draw
    leases, nodes and deployments.

    Python dictionaries are [gmap]s, exceptions are values of [exception]
    carried by [result], Deferreds that have already fired are values of
    [deferred], and every [draw] of a composite strategy reads the value
    the random source hands it from an explicit record of draws. *)

From stdpp Require Import gmap strings list fin_maps.

(** ** Exceptions, results and Deferreds *)

Inductive exception : Type :=
  | DatasetAlreadyOwned
  | TypeError (msg : string)
  | IndexError
  | KeyError.

#[global] Instance exception_eq_dec : EqDecision exception.
Proof. solve_decision. Defined.

Inductive result (A : Type) : Type :=
  | Ok (a : A)
  | Raise (e : exception).
Arguments Ok {A} a.
Arguments Raise {A} e.

(** Sequencing stops at the first exception raised. *)
#[global] Instance result_ret : MRet result := fun A a => Ok a.
#[global] Instance result_bind : MBind result := fun A B k r =>
  match r with
  | Ok a => k a
  | Raise e => Raise e
  end.
#[global] Instance result_fmap : FMap result := fun A B f r =>
  match r with
  | Ok a => Ok (f a)
  | Raise e => Raise e
  end.

(** A Deferred as the synchronous test helpers [successResultOf] and
    [failureResultOf] see it: fired with a result, fired with a failure, or
    not fired yet. *)
Inductive deferred (A : Type) : Type :=
  | Succeeded (a : A)
  | Failed (e : exception)
  | Pending.
Arguments Succeeded {A} a.
Arguments Failed {A} e.
Arguments Pending {A}.

(** ** The model types used by the test tools

    A UUID is its 128-bit integer value, a block device id is a text, and a
    [datetime] is a point on the time line. *)

Abbreviation UUID := N (only parsing).
Abbreviation datetime := Z (only parsing).

Record Manifestation : Type := { primary : bool }.

Record Node : Type := {
  uuid : UUID;
  manifestations : gmap UUID Manifestation
}.

Record Lease : Type := {
  dataset_id : UUID;
  node_id : UUID;
  expiration : datetime
}.

Record PersistentState : Type := {
  blockdevice_ownership : gmap UUID string
}.

Record Deployment : Type := {
  nodes : gmap UUID Node;
  leases : gmap UUID Lease;
  persistent_state : PersistentState
}.

(** Modelled from the spec: the class [Node] of flocker.control._model is
    not among the sources.  A node carries the set of manifestations
    believed present on it; [Node(uuid=u)], built from a uuid alone, carries
    none. *)
Definition Node_of_uuid (u : UUID) : Node :=
  {| uuid := u; manifestations := ∅ |}.

(** Modelled from the spec: the class [PersistentState] of
    flocker.control._model is not among the sources.  [PersistentState()]
    is the empty persistent state: its ownership ledger binds nothing. *)
Definition PersistentState_empty : PersistentState :=
  {| blockdevice_ownership := ∅ |}.

(** ** [IStatePersister] and the fixtures of its conformance suite *)

Class IStatePersister (S : Type) : Type := {
  record_ownership : UUID → string → S → deferred unit * S
}.

(** [fixture(self)] returns a provider and a 0-argument callable reading its
    persistent state; every example of a test calls it anew.  Whether the
    provider object declares [IStatePersister] and implements it with the
    right attributes and signatures, which is what [verifyObject] looks at,
    is a property of the object the fixture makes. *)
Record Fixture : Type := {
  provider : Type;
  provider_persister :: IStatePersister provider;
  provides_interface : bool;
  fresh : provider;
  get_state : provider → PersistentState
}.

(** Modelled from the spec: [InMemoryStatePersister] is imported from
    flocker.control._registry, which is not among the sources.  Recording
    binds a fresh dataset id to the handle; recording the identical pair
    again succeeds and changes nothing; recording a different handle for a
    bound dataset id fails with [DatasetAlreadyOwned] and leaves the ledger
    as it was. *)
Definition in_memory_record_ownership
    (d : UUID) (h : string) (s : PersistentState) : deferred unit * PersistentState :=
  match blockdevice_ownership s !! d with
  | None => (Succeeded (), {| blockdevice_ownership := <[d := h]> (blockdevice_ownership s) |})
  | Some h' =>
      if decide (h' = h) then (Succeeded (), s) else (Failed DatasetAlreadyOwned, s)
  end.

#[global] Instance InMemoryStatePersister : IStatePersister PersistentState :=
  {| record_ownership := in_memory_record_ownership |}.

Definition in_memory_fixture : Fixture :=
  {| provider := PersistentState;
     provides_interface := true;
     fresh := PersistentState_empty;
     get_state := fun s => s |}.

(** A provider that refuses every write to a dataset id that is already
    bound, whatever the handle.  It is used to measure what the suite tells
    apart. *)
Definition write_once_record_ownership
    (d : UUID) (h : string) (s : PersistentState) : deferred unit * PersistentState :=
  match blockdevice_ownership s !! d with
  | None => (Succeeded (), {| blockdevice_ownership := <[d := h]> (blockdevice_ownership s) |})
  | Some _ => (Failed DatasetAlreadyOwned, s)
  end.

Definition write_once_fixture : Fixture :=
  {| provider := PersistentState;
     provider_persister := {| record_ownership := write_once_record_ownership |};
     provides_interface := true;
     fresh := PersistentState_empty;
     get_state := fun s => s |}.

(** ** [make_istatepersister_tests] *)

(** How one example of a hypothesis test ends: the body ran through, an
    assertion (or an error) failed it, or [assume] rejected the example. *)
Inductive verdict : Type := Passed | Failing | Rejected.

#[global] Instance verdict_eq_dec : EqDecision verdict.
Proof. solve_decision. Defined.

(** [self.successResultOf(d)] *)
Definition successResultOf {A : Type} (d : deferred A) : bool :=
  match d with Succeeded _ => true | _ => false end.

(** [self.failureResultOf(d, expected)] *)
Definition failureResultOf {A : Type} (d : deferred A) (expected : exception) : bool :=
  match d with
  | Failed e => bool_decide (e = expected)
  | _ => false
  end.

(** [self.assertEqual(get_state().blockdevice_ownership[dataset_id], blockdevice_id)];
    the subscript raises [KeyError] on an unbound dataset id, which fails
    the test as well. *)
Definition assert_ownership (st : PersistentState) (d : UUID) (h : string) : verdict :=
  match blockdevice_ownership st !! d with
  | Some h' => if decide (h' = h) then Passed else Failing
  | None => Failing
  end.

(** [test_interface]: [verifyObject(IStatePersister, state_persister)]
    raises, and the test fails, when the provider does not declare the
    interface or implements it wrongly. *)
Definition test_interface (fx : Fixture) : verdict :=
  if provides_interface fx then Passed else Failing.

Definition test_records_blockdeviceid
    (fx : Fixture) (dataset_id : UUID) (blockdevice_id : string) : verdict :=
  let state_persister := fresh fx in
  let '(d, state_persister) := record_ownership dataset_id blockdevice_id state_persister in
  if successResultOf d
  then assert_ownership (get_state fx state_persister) dataset_id blockdevice_id
  else Failing.

Definition test_duplicate_blockdevice_id
    (fx : Fixture) (dataset_id : UUID) (blockdevice_id other_blockdevice_id : string)
    : verdict :=
  if decide (blockdevice_id ≠ other_blockdevice_id) then
    let state_persister := fresh fx in
    let '(d1, state_persister) :=
      record_ownership dataset_id blockdevice_id state_persister in
    if successResultOf d1 then
      let '(d2, state_persister) :=
        record_ownership dataset_id other_blockdevice_id state_persister in
      if failureResultOf d2 DatasetAlreadyOwned
      then assert_ownership (get_state fx state_persister) dataset_id blockdevice_id
      else Failing
    else Failing
  else Rejected.

(** A provider passes the suite when no example of any of its three tests
    fails. *)
Definition passes_suite (fx : Fixture) : Prop :=
  test_interface fx ≠ Failing
  ∧ (∀ d h, test_records_blockdeviceid fx d h ≠ Failing)
  ∧ (∀ d h h2, test_duplicate_blockdevice_id fx d h h2 ≠ Failing).

(** Recording an identical pair a second time succeeds and changes nothing
    the provider shows. *)
Definition idempotent_on_repeat (fx : Fixture) : Prop :=
  ∀ (d : UUID) (h : string) (s s1 : provider fx),
    record_ownership d h s = (Succeeded (), s1) →
    ∃ s2, record_ownership d h s1 = (Succeeded (), s2)
          ∧ get_state fx s2 = get_state fx s1.

(** ** [build_control_amp_service] *)

(** Modelled from the spec: the Twisted reactors are not among the sources.
    A time source is either the global wall-clock reactor or an injected
    one: a virtual [Clock], which only a test advances, or a
    [MemoryReactor].  Objects made by a constructor call are told apart by
    an allocation counter kept with the test case. *)
Inductive Reactor : Type :=
  | global_reactor
  | Clock (id : nat)
  | MemoryReactor (id : nat).

#[global] Instance Reactor_eq_dec : EqDecision Reactor.
Proof. solve_decision. Defined.

(** Modelled from the spec: the service classes of
    flocker.control._clusterstate, ._persistence and ._protocol are not
    among the sources.  Each takes its time source as its first constructor
    argument; a service is represented by the arguments its constructor was
    given and by whether [startService] has run. *)
Record ClusterStateService : Type := {
  css_reactor : Reactor;
  css_running : bool
}.

Record ConfigurationPersistenceService : Type := {
  cps_reactor : Reactor;
  cps_path : nat;
  cps_running : bool
}.

Record TCP4ServerEndpoint : Type := {
  endpoint_reactor : Reactor;
  endpoint_port : Z
}.

Inductive ClientContextFactory : Type := ClientContextFactory_new.

Record ControlAMPService : Type := {
  cas_reactor : Reactor;
  cas_cluster_state : ClusterStateService;
  cas_configuration_service : ConfigurationPersistenceService;
  cas_endpoint : TCP4ServerEndpoint;
  cas_context_factory : ClientContextFactory;
  cas_running : bool
}.

Inductive Cleanup : Type :=
  | stop_cluster_state (s : ClusterStateService)
  | stop_persistence (s : ConfigurationPersistenceService).

Record TestCase : Type := {
  allocated : nat;
  temporary_directories : nat;
  cleanups : list Cleanup
}.

Definition allocate (test_case : TestCase) : nat * TestCase :=
  (allocated test_case,
   {| allocated := S (allocated test_case);
      temporary_directories := temporary_directories test_case;
      cleanups := cleanups test_case |}).

Definition addCleanup (test_case : TestCase) (c : Cleanup) : TestCase :=
  {| allocated := allocated test_case;
     temporary_directories := temporary_directories test_case;
     cleanups := cleanups test_case ++ [c] |}.

Definition make_temporary_directory (test_case : TestCase) : nat * TestCase :=
  (temporary_directories test_case,
   {| allocated := allocated test_case;
      temporary_directories := S (temporary_directories test_case);
      cleanups := cleanups test_case |}).

Definition start_cluster_state (s : ClusterStateService) : ClusterStateService :=
  {| css_reactor := css_reactor s; css_running := true |}.

Definition start_persistence
    (s : ConfigurationPersistenceService) : ConfigurationPersistenceService :=
  {| cps_reactor := cps_reactor s; cps_path := cps_path s; cps_running := true |}.

Definition build_control_amp_service
    (test_case : TestCase) (reactor : option Reactor) : ControlAMPService * TestCase :=
  let '(reactor, test_case) :=
    match reactor with
    | None => let '(id, test_case) := allocate test_case in (Clock id, test_case)
    | Some r => (r, test_case)
    end in
  let cluster_state := {| css_reactor := reactor; css_running := false |} in
  let cluster_state := start_cluster_state cluster_state in
  let test_case := addCleanup test_case (stop_cluster_state cluster_state) in
  let '(directory, test_case) := make_temporary_directory test_case in
  let persistence_service :=
    {| cps_reactor := reactor; cps_path := directory; cps_running := false |} in
  let persistence_service := start_persistence persistence_service in
  let test_case := addCleanup test_case (stop_persistence persistence_service) in
  let '(memory_reactor, test_case) := allocate test_case in
  ({| cas_reactor := reactor;
      cas_cluster_state := cluster_state;
      cas_configuration_service := persistence_service;
      cas_endpoint :=
        {| endpoint_reactor := MemoryReactor memory_reactor; endpoint_port := 1234 |};
      cas_context_factory := ClientContextFactory_new;
      cas_running := false |},
   test_case).

(** A reactor whose time only moves when a test advances it. *)
Definition is_virtual_clock (r : Reactor) : Prop := ∃ id, r = Clock id.

(** ** The hypothesis strategies *)

(** A strategy for UUIDs handed to [lease_strategy]: [st.uuids()] or
    [st.just(u)]. *)
Inductive uuid_strategy : Type :=
  | st_uuids
  | st_just (u : UUID).

(** [draw(strategy)], where [random] is what the random source would hand
    out for [st.uuids()]. *)
Definition draw_uuid (strategy : uuid_strategy) (random : UUID) : UUID :=
  match strategy with
  | st_uuids => random
  | st_just u => u
  end.

(** [persistent_state_strategy(draw)]: [draw] is never called. *)
Definition persistent_state_strategy {D : Type} (draw : D) : PersistentState :=
  PersistentState_empty.

(** The values one run of [lease_strategy] reads from the random source:
    one per [draw], used when the strategy drawn from is not [st.just]. *)
Record LeaseDraws : Type := {
  random_dataset_id : UUID;
  random_node_id : UUID;
  random_expiration : datetime
}.

(** The keyword parameters of [lease_strategy] and their defaults. *)
Record lease_strategy_parameters : Type := {
  param_dataset_id : uuid_strategy;
  param_node_id : uuid_strategy
}.

Definition lease_strategy_defaults : lease_strategy_parameters :=
  {| param_dataset_id := st_uuids; param_node_id := st_uuids |}.

(** Binding the keyword arguments of a call: a keyword given more than
    once raises [TypeError], and so does a keyword that names no
    parameter. *)
Fixpoint bind_lease_keywords
    (kwargs : list (string * uuid_strategy)) (bound : lease_strategy_parameters)
    : result lease_strategy_parameters :=
  match kwargs with
  | [] => Ok bound
  | (keyword, strategy) :: kwargs =>
      if decide (keyword ∈ kwargs.*1) then
        Raise (TypeError ("got multiple values for keyword argument " +:+ keyword))
      else if decide (keyword = "dataset_id"%string) then
        bind_lease_keywords kwargs
          {| param_dataset_id := strategy; param_node_id := param_node_id bound |}
      else if decide (keyword = "node_id"%string) then
        bind_lease_keywords kwargs
          {| param_dataset_id := param_dataset_id bound; param_node_id := strategy |}
      else Raise (TypeError ("unexpected keyword argument " +:+ keyword))
  end.

Definition lease_strategy
    (kwargs : list (string * uuid_strategy)) (draws : LeaseDraws) : result Lease :=
  params ← bind_lease_keywords kwargs lease_strategy_defaults;
  Ok {| dataset_id := draw_uuid (param_dataset_id params) (random_dataset_id draws);
        node_id := draw_uuid (param_node_id params) (random_node_id draws);
        expiration := random_expiration draws |}.

(** [node_strategy(draw)], where [u] is the value of [draw(st.uuids())]. *)
Definition node_strategy (u : UUID) : Node := Node_of_uuid u.

(** [l[i]] on a Python list: a negative index counts from the end, an index
    out of range raises [IndexError]. *)
Definition py_getitem {A : Type} (l : list A) (i : Z) : result A :=
  let n := Z.of_nat (length l) in
  let j := if decide (i < 0)%Z then (i + n)%Z else i in
  if decide (0 ≤ j < n)%Z then
    match l !! Z.to_nat j with
    | Some a => Ok a
    | None => Raise IndexError
    end
  else Raise IndexError.

(** The loop filling [dataset_id_node_mapping]: every dataset id manifest on
    a node is bound to that node's uuid, later nodes overwriting earlier
    ones. *)
Definition record_node (mapping : gmap UUID UUID) (node : Node) : gmap UUID UUID :=
  foldl (fun mapping dataset_id => <[dataset_id := uuid node]> mapping)
        mapping (map_to_list (manifestations node)).*1.

Definition dataset_id_node_mapping (nodes : list Node) : gmap UUID UUID :=
  foldl record_node ∅ nodes.

(** [{n.uuid: n for n in nodes}] *)
Definition nodes_by_uuid (nodes : list Node) : gmap UUID Node :=
  foldl (fun m n => <[uuid n := n]> m) ∅ nodes.

(** [{l.dataset_id: l for l in leases}] *)
Definition leases_by_dataset_id (leases : list Lease) : gmap UUID Lease :=
  foldl (fun m l => <[dataset_id l := l]> m) ∅ leases.

(** The values one run of [deployment_strategy] reads from the random
    source: the uuid drawn for each node of the drawn list, the drawn set
    of lease indexes in the order in which the set is iterated, and the
    draws of the k-th lease. *)
Record Draws : Type := {
  drawn_node_uuids : list UUID;
  drawn_lease_indexes : list Z;
  drawn_lease : nat → LeaseDraws
}.

(** The size bounds [st.lists] is given. *)
Record lists_bounds : Type := {
  min_size : nat;
  average_size : nat;
  max_size : nat
}.

Definition node_list_bounds (min_number_of_nodes : nat) : lists_bounds :=
  {| min_size := min_number_of_nodes;
     average_size := max min_number_of_nodes 5;
     max_size := max min_number_of_nodes 1000 |}.

Section Deployments.

(** The order in which a Python dictionary lists its items is up to the
    interpreter; it is a parameter here. *)
Variable dict_items : gmap UUID UUID → list (UUID * UUID).

(** [lease_indexes]: drawn only when the mapping is not empty. *)
Definition lease_indexes_of (mapping : gmap UUID UUID) (d : Draws) : list Z :=
  if decide (0 < size mapping) then drawn_lease_indexes d else [].

(** The generator [dataset_id_node_mapping.items()[i] for i in lease_indexes],
    run to its end. *)
Fixpoint selected_items
    (mapping : gmap UUID UUID) (lease_indexes : list Z) : result (list (UUID * UUID)) :=
  match lease_indexes with
  | [] => Ok []
  | i :: lease_indexes =>
      item ← py_getitem (dict_items mapping) i;
      items ← selected_items mapping lease_indexes;
      Ok (item :: items)
  end.

(** The list comprehension building [leases]: the k-th item of the
    generator is fetched, then the k-th lease is drawn. *)
Fixpoint draw_leases
    (mapping : gmap UUID UUID) (lease_indexes : list Z)
    (k : nat) (lease_draws : nat → LeaseDraws) : result (list Lease) :=
  match lease_indexes with
  | [] => Ok []
  | i :: lease_indexes =>
      '(dataset_id, node_uuid) ← py_getitem (dict_items mapping) i;
      lease ← lease_strategy [("dataset_id"%string, st_just dataset_id);
                              ("node_uuid"%string, st_just node_uuid)] (lease_draws k);
      leases ← draw_leases mapping lease_indexes (S k) lease_draws;
      Ok (lease :: leases)
  end.

(** The body of [deployment_strategy] once [nodes] has been drawn. *)
Definition deployment_of_nodes (node_list : list Node) (d : Draws) : result Deployment :=
  let mapping := dataset_id_node_mapping node_list in
  let lease_indexes := lease_indexes_of mapping d in
  lease_list ← draw_leases mapping lease_indexes 0 (drawn_lease d);
  let state := persistent_state_strategy d in
  Ok {| nodes := nodes_by_uuid node_list;
        leases := leases_by_dataset_id lease_list;
        persistent_state := state |}.

(** [deployment_strategy(draw, min_number_of_nodes)].  The parameter
    [min_number_of_nodes] only bounds the length of the drawn list of
    nodes, see [drawable]. *)
Definition deployment_strategy (d : Draws) : result Deployment :=
  deployment_of_nodes (node_strategy <$> drawn_node_uuids d) d.

(** The draws the strategies of [deployment_strategy] can produce: a list
    of nodes within the size bounds and, when a set of indexes is drawn,
    distinct indexes between 0 and the last position of the mapping. *)
Definition drawable (min_number_of_nodes : nat) (d : Draws) : Prop :=
  let bounds := node_list_bounds min_number_of_nodes in
  let mapping := dataset_id_node_mapping (node_strategy <$> drawn_node_uuids d) in
  min_size bounds ≤ length (drawn_node_uuids d) ≤ max_size bounds
  ∧ NoDup (lease_indexes_of mapping d)
  ∧ ∀ i, i ∈ lease_indexes_of mapping d → (0 ≤ i ≤ Z.of_nat (size mapping) - 1)%Z.

(** The set of (dataset_id, node_uuid) pairs chosen for leases. *)
Definition chosen_pairs
    (mapping : gmap UUID UUID) (lease_indexes : list Z) : result (gset (UUID * UUID)) :=
  list_to_set <$> selected_items mapping lease_indexes.

End Deployments.

(** An order in which a dictionary may list its items. *)
Definition iteration_order (order : gmap UUID UUID → list (UUID * UUID)) : Prop :=
  ∀ m, order m ≡ₚ map_to_list m.

(** ** [make_loopback_control_client] *)

(** Modelled from the spec: [ControlAMP] (flocker.control._protocol) and
    [LoopbackAMPClient] (flocker.testtools.amp) are not among the sources.
    Each is represented by the arguments its constructor was given; the
    [locator] of a [ControlAMP] dispatches the commands of that protocol
    object.  A reactor argument of [None] is Python's [None]. *)
Record ControlAMP : Type := {
  amp_reactor : option Reactor;
  amp_control_amp_service : ControlAMPService
}.

Inductive CommandLocator : Type := locator (amp : ControlAMP).

Record LoopbackAMPClient : Type := {
  command_locator : CommandLocator
}.

Definition make_loopback_control_client
    (test_case : TestCase) (reactor : option Reactor)
    : (ControlAMPService * LoopbackAMPClient) * TestCase :=
  let '(control_amp_service, test_case) :=
    build_control_amp_service test_case reactor in
  let client :=
    {| command_locator :=
         locator {| amp_reactor := reactor;
                    amp_control_amp_service := control_amp_service |} |} in
  ((control_amp_service, client), test_case).

(** The keywords [lease_strategy] has a parameter for. *)
Definition known_keyword (keyword : string) : Prop :=
  keyword = "dataset_id"%string ∨ keyword = "node_id"%string.

(** * Properties *)

(** ** The ownership ledger *)

Section Ledger.

Implicit Types (d : UUID) (h : string) (s : PersistentState).

Lemma record_unbound d h s :
  blockdevice_ownership s !! d = None →
  in_memory_record_ownership d h s
  = (Succeeded (), {| blockdevice_ownership := <[d := h]> (blockdevice_ownership s) |}).
Proof. intros Hd. unfold in_memory_record_ownership. by rewrite Hd. Qed.

Lemma record_success_binds d h s s1 :
  in_memory_record_ownership d h s = (Succeeded (), s1) →
  blockdevice_ownership s1 !! d = Some h.
Proof.
  unfold in_memory_record_ownership.
  destruct (blockdevice_ownership s !! d) as [h'|] eqn:Hd.
  - case_decide; [|discriminate]. intros [= <-]. by subst.
  - intros [= <-]. simpl. apply lookup_insert_eq.
Qed.

Lemma record_bound_same d h s :
  blockdevice_ownership s !! d = Some h →
  in_memory_record_ownership d h s = (Succeeded (), s).
Proof.
  intros Hd. unfold in_memory_record_ownership. rewrite Hd.
  by rewrite decide_True.
Qed.

Lemma record_bound_other d h h2 s :
  blockdevice_ownership s !! d = Some h → h ≠ h2 →
  in_memory_record_ownership d h2 s = (Failed DatasetAlreadyOwned, s).
Proof.
  intros Hd Hne. unfold in_memory_record_ownership. rewrite Hd.
  by rewrite decide_False.
Qed.

Lemma write_once_first d h :
  write_once_record_ownership d h PersistentState_empty
  = (Succeeded (), {| blockdevice_ownership := {[d := h]} |}).
Proof. reflexivity. Qed.

Lemma write_once_second d h h2 :
  write_once_record_ownership d h2 {| blockdevice_ownership := {[d := h]} |}
  = (Failed DatasetAlreadyOwned, {| blockdevice_ownership := {[d := h]} |}).
Proof.
  unfold write_once_record_ownership. simpl. by rewrite lookup_singleton_eq.
Qed.

End Ledger.

(** What an example of each test establishes about the provider under
    test. *)

Lemma assert_ownership_passed st d h :
  assert_ownership st d h = Passed ↔ blockdevice_ownership st !! d = Some h.
Proof.
  unfold assert_ownership. destruct (blockdevice_ownership st !! d) as [h'|].
  - case_decide; split; intros; simplify_eq; done.
  - split; discriminate.
Qed.

Lemma test_records_passed (fx : Fixture) d h :
  test_records_blockdeviceid fx d h = Passed ↔
  ∃ s1, record_ownership d h (fresh fx) = (Succeeded (), s1)
        ∧ blockdevice_ownership (get_state fx s1) !! d = Some h.
Proof.
  unfold test_records_blockdeviceid.
  destruct (record_ownership d h (fresh fx)) as [r s1].
  destruct r as [[]| |]; simpl.
  - rewrite assert_ownership_passed. split.
    + intros H. by exists s1.
    + intros (s1' & [= <-] & H). done.
  - split; [discriminate|]. intros (? & [=] & _).
  - split; [discriminate|]. intros (? & [=] & _).
Qed.

Lemma test_duplicate_passed (fx : Fixture) d h h2 :
  h ≠ h2 →
  test_duplicate_blockdevice_id fx d h h2 = Passed ↔
  ∃ s1 s2, record_ownership d h (fresh fx) = (Succeeded (), s1)
           ∧ record_ownership d h2 s1 = (Failed DatasetAlreadyOwned, s2)
           ∧ blockdevice_ownership (get_state fx s2) !! d = Some h.
Proof.
  intros Hne. unfold test_duplicate_blockdevice_id. rewrite decide_True by done.
  destruct (record_ownership d h (fresh fx)) as [r1 s1].
  destruct r1 as [[]| |]; simpl;
    [|split; [discriminate|]; intros (? & ? & [=] & _)..].
  destruct (record_ownership d h2 s1) as [r2 s2] eqn:H2.
  destruct r2 as [[]|e|]; simpl.
  - split; [discriminate|]. intros (? & ? & [= <-] & Hr & _).
    rewrite H2 in Hr. discriminate.
  - case_bool_decide as He.
    + subst e. rewrite assert_ownership_passed. split.
      * intros H. by exists s1, s2.
      * intros (? & ? & [= <-] & Hr & H). rewrite H2 in Hr. by simplify_eq.
    + split; [discriminate|]. intros (? & ? & [= <-] & Hr & _).
      rewrite H2 in Hr. by simplify_eq.
  - split; [discriminate|]. intros (? & ? & [= <-] & Hr & _).
    rewrite H2 in Hr. discriminate.
Qed.

Lemma test_duplicate_same_handle (fx : Fixture) d h :
  test_duplicate_blockdevice_id fx d h h = Rejected.
Proof.
  unfold test_duplicate_blockdevice_id. by rewrite decide_False by (intros ?; done).
Qed.

Lemma write_once_passes_suite : passes_suite write_once_fixture.
Proof.
  split; [done|]. split.
  - intros d h. unfold test_records_blockdeviceid. simpl.
    rewrite write_once_first. simpl. unfold assert_ownership. simpl.
    rewrite lookup_singleton_eq. by rewrite decide_True.
  - intros d h h2. unfold test_duplicate_blockdevice_id.
    case_decide; [|done]. simpl.
    rewrite write_once_first. simpl. rewrite write_once_second. simpl.
    unfold assert_ownership. simpl.
    rewrite lookup_singleton_eq. by rewrite decide_True.
Qed.

Lemma write_once_not_idempotent : ¬ idempotent_on_repeat write_once_fixture.
Proof.
  intros Hidem.
  destruct (Hidem 1%N "disk-1"%string PersistentState_empty _ (write_once_first _ _))
    as (s2 & Hs2 & _).
  simpl in Hs2. rewrite write_once_second in Hs2. discriminate.
Qed.

Lemma in_memory_idempotent : idempotent_on_repeat in_memory_fixture.
Proof.
  intros d h s s1 H1. exists s1. split; [|done].
  apply record_bound_same. by eapply record_success_binds.
Qed.

(** C1: once [record_ownership(d, h)] has succeeded, [record_ownership(d, h2)]
    with a different handle [h2] fails with [DatasetAlreadyOwned] and leaves
    the ledger as it was, still binding [d] to [h]; the in-memory provider
    passes [test_duplicate_blockdevice_id] on these arguments, and for any
    provider that test passes exactly when, from a fresh provider, the first
    call succeeds, the second fails with [DatasetAlreadyOwned] and the state
    read back binds [d] to [h]. *)
Theorem duplicate_ownership_rejected
    (d : UUID) (h h2 : string) (s s1 : PersistentState)
    (Hdistinct : h ≠ h2)
    (Hfirst : record_ownership d h s = (Succeeded (), s1)) :
  record_ownership d h2 s1 = (Failed DatasetAlreadyOwned, s1)
  ∧ blockdevice_ownership s1 !! d = Some h
  ∧ test_duplicate_blockdevice_id in_memory_fixture d h h2 = Passed
  ∧ ∀ fx : Fixture,
      test_duplicate_blockdevice_id fx d h h2 = Passed ↔
      ∃ t1 t2, record_ownership d h (fresh fx) = (Succeeded (), t1)
               ∧ record_ownership d h2 t1 = (Failed DatasetAlreadyOwned, t2)
               ∧ blockdevice_ownership (get_state fx t2) !! d = Some h.
Proof.
  pose proof (record_success_binds _ _ _ _ Hfirst) as Hbound.
  split; [by apply (record_bound_other d h)|]. split; [done|]. split.
  - apply test_duplicate_passed; [done|]. simpl.
    eexists _, _. split; [by apply record_unbound|]. split.
    + apply (record_bound_other d h); [apply lookup_insert_eq|done].
    + apply lookup_insert_eq.
  - intros fx. by apply test_duplicate_passed.
Qed.

Lemma duplicate_ownership_rejected_witness :
  "disk-1"%string ≠ "disk-2"%string
  ∧ record_ownership 7%N "disk-1"%string PersistentState_empty
    = (Succeeded (), {| blockdevice_ownership := {[7%N := "disk-1"%string]} |})
  ∧ record_ownership 7%N "disk-2"%string
      {| blockdevice_ownership := {[7%N := "disk-1"%string]} |}
    = (Failed DatasetAlreadyOwned,
       {| blockdevice_ownership := {[7%N := "disk-1"%string]} |}).
Proof.
  split; [discriminate|]. split; [reflexivity|].
  apply (duplicate_ownership_rejected 7%N "disk-1"%string "disk-2"%string
           PersistentState_empty
           {| blockdevice_ownership := {[7%N := "disk-1"%string]} |});
    [discriminate | reflexivity].
Defined.

(** C2: the first [record_ownership(d, h)] against a fresh persister
    succeeds and the state read back binds [d] to [h]; the in-memory
    provider passes [test_records_blockdeviceid], and for any provider that
    test passes exactly when the first call on a fresh provider succeeds
    and the state read back binds [d] to [h]. *)
Theorem first_ownership_recorded (d : UUID) (h : string) :
  (∃ s1 : PersistentState,
      record_ownership d h (fresh in_memory_fixture) = (Succeeded (), s1)
      ∧ blockdevice_ownership (get_state in_memory_fixture s1) !! d = Some h)
  ∧ test_records_blockdeviceid in_memory_fixture d h = Passed
  ∧ ∀ fx : Fixture,
      test_records_blockdeviceid fx d h = Passed ↔
      ∃ t1, record_ownership d h (fresh fx) = (Succeeded (), t1)
            ∧ blockdevice_ownership (get_state fx t1) !! d = Some h.
Proof.
  assert (∃ s1 : PersistentState,
      record_ownership d h (fresh in_memory_fixture) = (Succeeded (), s1)
      ∧ blockdevice_ownership (get_state in_memory_fixture s1) !! d = Some h) as Hfirst.
  { eexists. split; [by apply record_unbound|]. apply lookup_insert_eq. }
  split; [done|]. split.
  - by apply test_records_passed.
  - intros fx. apply test_records_passed.
Qed.

(** C3, as stated, fails: recording an identical pair twice is idempotent
    on the in-memory provider, but the suite does not check it, since a
    provider that refuses every second write passes all its tests. *)
Lemma suite_checks_idempotence_refuted :
  ¬ (idempotent_on_repeat in_memory_fixture
     ∧ ∀ fx : Fixture, passes_suite fx → idempotent_on_repeat fx).
Proof.
  intros [_ Hchecks].
  exact (write_once_not_idempotent (Hchecks _ write_once_passes_suite)).
Qed.

(** C3, amended: once [record_ownership(d, h)] has succeeded, calling it
    again with the identical pair succeeds and leaves the ledger as it was;
    the suite does not check this: [test_duplicate_blockdevice_id] rejects
    every example whose two handles are equal, and a provider that refuses
    every second write passes the suite without being idempotent. *)
Theorem repeated_ownership_idempotent
    (d : UUID) (h : string) (s s1 : PersistentState)
    (Hfirst : record_ownership d h s = (Succeeded (), s1)) :
  record_ownership d h s1 = (Succeeded (), s1)
  ∧ (∀ fx : Fixture, test_duplicate_blockdevice_id fx d h h = Rejected)
  ∧ passes_suite write_once_fixture
  ∧ ¬ idempotent_on_repeat write_once_fixture.
Proof.
  split; [|split; [|split]].
  - apply record_bound_same. by eapply record_success_binds.
  - intros fx. apply test_duplicate_same_handle.
  - exact write_once_passes_suite.
  - exact write_once_not_idempotent.
Qed.

Lemma repeated_ownership_idempotent_witness :
  record_ownership 7%N "disk-1"%string PersistentState_empty
  = (Succeeded (), {| blockdevice_ownership := {[7%N := "disk-1"%string]} |})
  ∧ record_ownership 7%N "disk-1"%string
      {| blockdevice_ownership := {[7%N := "disk-1"%string]} |}
    = (Succeeded (), {| blockdevice_ownership := {[7%N := "disk-1"%string]} |}).
Proof.
  split; [reflexivity|].
  apply (repeated_ownership_idempotent 7%N "disk-1"%string PersistentState_empty
           {| blockdevice_ownership := {[7%N := "disk-1"%string]} |}).
  reflexivity.
Defined.

(** ** Wiring the control service *)

Lemma build_control_amp_service_reactors (test_case : TestCase) (reactor : option Reactor) :
  let r := default (Clock (allocated test_case)) reactor in
  let service := (build_control_amp_service test_case reactor).1 in
  cas_reactor service = r
  ∧ css_reactor (cas_cluster_state service) = r
  ∧ cps_reactor (cas_configuration_service service) = r.
Proof. by destruct reactor. Qed.

(** C7: called with [reactor=None], [build_control_amp_service] makes one
    new [Clock] and constructs the [ClusterStateService], the
    [ConfigurationPersistenceService] and the returned [ControlAMPService]
    over it: all three hold that virtual clock, which is not the global
    reactor. *)
Theorem services_use_injected_clock (test_case : TestCase) :
  let service := (build_control_amp_service test_case None).1 in
  ∃ id : nat,
    cas_reactor service = Clock id
    ∧ css_reactor (cas_cluster_state service) = Clock id
    ∧ cps_reactor (cas_configuration_service service) = Clock id
    ∧ is_virtual_clock (Clock id)
    ∧ Clock id ≠ global_reactor.
Proof.
  intros service. exists (allocated test_case).
  destruct (build_control_amp_service_reactors test_case None) as (H1 & H2 & H3).
  split; [exact H1|]. split; [exact H2|]. split; [exact H3|].
  split; [by eexists | discriminate].
Qed.

(** ** Dictionary comprehensions

    [{key(x): x for x in l}] inserts the elements of [l] one after the
    other, a later element replacing an earlier one under the same key. *)

Section Comprehension.

Context {A : Type} (key : A → UUID).

Lemma comprehension_lookup (m : gmap UUID A) (l : list A) (k : UUID) (x : A) :
  foldl (fun (m : gmap UUID A) x => <[key x := x]> m) m l !! k = Some x → (x ∈ l ∧ key x = k) ∨ m !! k = Some x.
Proof.
  revert m. induction l as [|a l IH]; intros m; simpl; [by right|].
  intros [[Hin Hk]|Hm]%IH.
  - left. split; [by right|done].
  - rewrite lookup_insert in Hm. case_decide; simplify_eq.
    + left. split; [by left|done].
    + by right.
Qed.

Lemma comprehension_lookup_other (m : gmap UUID A) (l : list A) (k : UUID) :
  k ∉ key <$> l → foldl (fun (m : gmap UUID A) x => <[key x := x]> m) m l !! k = m !! k.
Proof.
  revert m. induction l as [|a l IH]; intros m; simpl; [done|].
  intros [Hne Hnotin]%not_elem_of_cons.
  rewrite IH by done. by rewrite lookup_insert_ne.
Qed.

Lemma comprehension_last_wins (m : gmap UUID A) (l1 l2 : list A) (x : A) :
  key x ∉ key <$> l2 → foldl (fun (m : gmap UUID A) x => <[key x := x]> m) m (l1 ++ x :: l2) !! key x = Some x.
Proof.
  intros Hnotin. rewrite foldl_app. simpl.
  rewrite comprehension_lookup_other by done. apply lookup_insert_eq.
Qed.

Lemma comprehension_dom (m : gmap UUID A) (l : list A) :
  dom (foldl (fun (m : gmap UUID A) x => <[key x := x]> m) m l) = list_to_set (key <$> l) ∪ dom m.
Proof.
  revert m. induction l as [|a l IH]; intros m; simpl.
  - by rewrite (left_id_L ∅ (∪)).
  - rewrite IH, dom_insert_L, (assoc_L (∪)).
    by rewrite (comm_L (∪) (list_to_set (key <$> l)) {[key a]}).
Qed.

End Comprehension.


Lemma nodes_by_uuid_dom (node_list : list Node) :
  dom (nodes_by_uuid node_list) = list_to_set (uuid <$> node_list).
Proof.
  unfold nodes_by_uuid. rewrite comprehension_dom, dom_empty_L.
  by rewrite (right_id_L ∅ (∪)).
Qed.

Lemma leases_by_dataset_id_lookup (lease_list : list Lease) (k : UUID) (l : Lease) :
  leases_by_dataset_id lease_list !! k = Some l → l ∈ lease_list ∧ dataset_id l = k.
Proof.
  intros [H|H]%comprehension_lookup; [done|]. by rewrite lookup_empty in H.
Qed.

(** ** The mapping from dataset ids to nodes *)



Lemma record_node_strategy (mapping : gmap UUID UUID) (u : UUID) :
  record_node mapping (node_strategy u) = mapping.
Proof. unfold record_node. simpl. by rewrite map_to_list_empty. Qed.

(** Nodes drawn from [node_strategy] have no manifestations, so the mapping
    built from them is empty. *)
Lemma mapping_of_drawn_nodes (us : list UUID) :
  dataset_id_node_mapping (node_strategy <$> us) = ∅.
Proof.
  unfold dataset_id_node_mapping. generalize (∅ : gmap UUID UUID).
  induction us as [|u us IH]; intros m; simpl; [done|].
  by rewrite record_node_strategy.
Qed.

Lemma lease_indexes_of_drawn_nodes (d : Draws) :
  lease_indexes_of (dataset_id_node_mapping (node_strategy <$> drawn_node_uuids d)) d = [].
Proof. by rewrite mapping_of_drawn_nodes. Qed.

(** The value of every draw of [deployment_strategy]. *)
Lemma deployment_strategy_value
    (dict_items : gmap UUID UUID → list (UUID * UUID)) (d : Draws) :
  deployment_strategy dict_items d
  = Ok {| nodes := nodes_by_uuid (node_strategy <$> drawn_node_uuids d);
          leases := ∅;
          persistent_state := PersistentState_empty |}.
Proof.
  unfold deployment_strategy, deployment_of_nodes.
  by rewrite lease_indexes_of_drawn_nodes.
Qed.

(** ** The lease-drawing path on nodes that carry manifestations

    No draw of [deployment_strategy] reaches it, but the body run on a list
    of nodes with manifestations does. *)

(** [lease_strategy] has no parameter [node_uuid]: the first lease drawn
    raises [TypeError]. *)
Lemma draw_leases_raises
    (dict_items : gmap UUID UUID → list (UUID * UUID)) (mapping : gmap UUID UUID)
    (i : Z) (lease_indexes : list Z) (k : nat) (lease_draws : nat → LeaseDraws)
    (item : UUID * UUID) :
  py_getitem (dict_items mapping) i = Ok item →
  draw_leases dict_items mapping (i :: lease_indexes) k lease_draws
  = Raise (TypeError "unexpected keyword argument node_uuid").
Proof. intros Hitem. simpl. rewrite Hitem. by destruct item. Qed.

Example deployment_of_manifest_node_raises :
  let node := {| uuid := 1%N; manifestations := {[10%N := {| primary := true |}]} |} in
  let d := {| drawn_node_uuids := [1%N];
              drawn_lease_indexes := [0%Z];
              drawn_lease := fun _ => {| random_dataset_id := 0%N;
                                         random_node_id := 0%N;
                                         random_expiration := 0%Z |} |} in
  deployment_of_nodes map_to_list [node] d
  = Raise (TypeError "unexpected keyword argument node_uuid").
Proof. vm_compute. reflexivity. Qed.

Lemma py_getitem_elem_of {A : Type} (l : list A) (i : Z) (a : A) :
  py_getitem l i = Ok a → a ∈ l.
Proof.
  unfold py_getitem. case_decide; [|discriminate].
  destruct (l !! _) as [b|] eqn:Hb; [|discriminate].
  intros [= <-]. by eapply list_elem_of_lookup_2.
Qed.

(** Whatever the order of the items, every pair the generator yields is a
    binding of the mapping, hence names a node on which the dataset is
    manifest. *)
Lemma selected_items_are_bindings
    (dict_items : gmap UUID UUID → list (UUID * UUID)) (mapping : gmap UUID UUID)
    (lease_indexes : list Z) (pairs : list (UUID * UUID)) :
  iteration_order dict_items →
  selected_items dict_items mapping lease_indexes = Ok pairs →
  ∀ ds u, (ds, u) ∈ pairs → mapping !! ds = Some u.
Proof.
  intros Horder. revert pairs.
  induction lease_indexes as [|i lease_indexes IH]; intros pairs; simpl.
  - intros [= <-] ds u Hin. by apply elem_of_nil in Hin.
  - destruct (py_getitem (dict_items mapping) i) as [item|] eqn:Hitem; [|discriminate].
    simpl.
    destruct (selected_items dict_items mapping lease_indexes) as [items|]; [|discriminate].
    simpl. intros [= <-] ds u [Heq|Hin]%elem_of_cons.
    + subst item.
      apply py_getitem_elem_of in Hitem. rewrite (Horder mapping) in Hitem.
      by apply elem_of_map_to_list in Hitem.
    + by eapply IH.
Qed.

(** On a mapping with two bindings the pair chosen by index 0 depends on
    the order in which the dictionary lists its items. *)
Example selection_follows_item_order :
  let mapping : gmap UUID UUID := {[10%N := 1%N; 20%N := 2%N]} in
  chosen_pairs (fun _ => [(10%N, 1%N); (20%N, 2%N)]) mapping [0%Z] = Ok {[(10%N, 1%N)]}
  ∧ chosen_pairs (fun _ => [(20%N, 2%N); (10%N, 1%N)]) mapping [0%Z] = Ok {[(20%N, 2%N)]}.
Proof. split; vm_compute; reflexivity. Qed.

(** ** Deployments drawn from [deployment_strategy] *)

(** C4: every draw of [deployment_strategy] yields a deployment whose lease
    mapping has pairwise distinct dataset ids as keys, each key being the
    [dataset_id] of the lease it maps to; the same holds of the dictionary
    [{l.dataset_id: l for l in leases}] built from any list of leases. *)
Theorem lease_keys_unique
    (dict_items : gmap UUID UUID → list (UUID * UUID)) (d : Draws) :
  (∃ dep : Deployment,
      deployment_strategy dict_items d = Ok dep
      ∧ NoDup (map_to_list (leases dep)).*1
      ∧ ∀ (k : UUID) (l : Lease), leases dep !! k = Some l → dataset_id l = k)
  ∧ ∀ lease_list : list Lease,
      NoDup (map_to_list (leases_by_dataset_id lease_list)).*1
      ∧ ∀ (k : UUID) (l : Lease),
          leases_by_dataset_id lease_list !! k = Some l →
          l ∈ lease_list ∧ dataset_id l = k.
Proof.
  split.
  - eexists. split; [apply deployment_strategy_value|]. simpl. split.
    + apply NoDup_fst_map_to_list.
    + intros k l Hl. by rewrite lookup_empty in Hl.
  - intros lease_list. split.
    + apply NoDup_fst_map_to_list.
    + apply leases_by_dataset_id_lookup.
Qed.

(** C8: every draw of [deployment_strategy] yields a deployment with an
    empty lease mapping: the nodes drawn carry no manifestations, so
    [dataset_id_node_mapping] is empty and [lease_indexes] is the empty
    list. *)
Theorem drawn_deployment_has_no_leases
    (dict_items : gmap UUID UUID → list (UUID * UUID)) (d : Draws) :
  let node_list := node_strategy <$> drawn_node_uuids d in
  (∀ u : UUID, manifestations (node_strategy u) = ∅)
  ∧ dataset_id_node_mapping node_list = ∅
  ∧ lease_indexes_of (dataset_id_node_mapping node_list) d = []
  ∧ ∃ dep : Deployment,
      deployment_strategy dict_items d = Ok dep ∧ leases dep = ∅.
Proof.
  intros node_list. split; [done|].
  split; [apply mapping_of_drawn_nodes|].
  split; [apply lease_indexes_of_drawn_nodes|].
  eexists. split; [apply deployment_strategy_value|done].
Qed.

(** C9: [persistent_state_strategy] returns the empty [PersistentState()]
    whatever its [draw] would hand out, and every draw of
    [deployment_strategy] yields a deployment whose persistent state is that
    empty state, with an empty ownership ledger. *)
Theorem persistent_state_strategy_constant
    (dict_items : gmap UUID UUID → list (UUID * UUID)) (d : Draws) :
  (∀ (D : Type) (draw : D), persistent_state_strategy draw = PersistentState_empty)
  ∧ ∃ dep : Deployment,
      deployment_strategy dict_items d = Ok dep
      ∧ persistent_state dep = PersistentState_empty
      ∧ blockdevice_ownership (persistent_state dep) = ∅.
Proof.
  split; [done|].
  eexists. split; [apply deployment_strategy_value|done].
Qed.


(** * Further properties of the test tools *)

(** ** The conformance suite as a whole *)

Lemma test_records_never_rejected (fx : Fixture) (d : UUID) (h : string) :
  test_records_blockdeviceid fx d h ≠ Failing ↔ test_records_blockdeviceid fx d h = Passed.
Proof.
  split; [|by intros ->].
  unfold test_records_blockdeviceid.
  destruct (record_ownership d h (fresh fx)) as [r s1].
  destruct (successResultOf r); [|done].
  unfold assert_ownership. destruct (_ !! d); [|done]. by case_decide.
Qed.

Lemma test_duplicate_distinct_never_rejected (fx : Fixture) (d : UUID) (h h2 : string) :
  h ≠ h2 →
  test_duplicate_blockdevice_id fx d h h2 ≠ Failing ↔
  test_duplicate_blockdevice_id fx d h h2 = Passed.
Proof.
  intros Hne. split; [|by intros ->].
  unfold test_duplicate_blockdevice_id. rewrite decide_True by done.
  destruct (record_ownership d h (fresh fx)) as [r1 s1].
  destruct (successResultOf r1); [|done].
  destruct (record_ownership d h2 s1) as [r2 s2].
  destruct (failureResultOf r2 DatasetAlreadyOwned); [|done].
  unfold assert_ownership. destruct (_ !! d); [|done]. by case_decide.
Qed.

Lemma test_interface_passed (fx : Fixture) :
  test_interface fx ≠ Failing ↔ provides_interface fx = true.
Proof. unfold test_interface. by destruct (provides_interface fx). Qed.

(** X1: a provider passes the suite exactly when [verifyObject] accepts it
    as an [IStatePersister] and, on a fresh provider, every first write
    succeeds at once and is read back, and every second write of a
    different handle for the same dataset id fails with
    [DatasetAlreadyOwned] and the first handle is still read back. *)
Theorem suite_guarantee (fx : Fixture) :
  passes_suite fx ↔
  provides_interface fx = true
  ∧ (∀ (d : UUID) (h : string),
        ∃ s1, record_ownership d h (fresh fx) = (Succeeded (), s1)
              ∧ blockdevice_ownership (get_state fx s1) !! d = Some h)
  ∧ (∀ (d : UUID) (h h2 : string),
        h ≠ h2 →
        ∃ s1 s2, record_ownership d h (fresh fx) = (Succeeded (), s1)
                 ∧ record_ownership d h2 s1 = (Failed DatasetAlreadyOwned, s2)
                 ∧ blockdevice_ownership (get_state fx s2) !! d = Some h).
Proof.
  unfold passes_suite. rewrite test_interface_passed. split.
  - intros (Hinterface & Hrec & Hdup). split; [done|]. split.
    + intros d h. apply test_records_passed, test_records_never_rejected, Hrec.
    + intros d h h2 Hne.
      apply test_duplicate_passed; [done|].
      by apply test_duplicate_distinct_never_rejected.
  - intros (Hinterface & Hrec & Hdup). split; [done|]. split.
    + intros d h. apply test_records_never_rejected, test_records_passed, Hrec.
    + intros d h h2. destruct (decide (h = h2)) as [->|Hne].
      * by rewrite test_duplicate_same_handle.
      * apply test_duplicate_distinct_never_rejected; [done|].
        apply test_duplicate_passed; [done|]. by apply Hdup.
Qed.

(** ** Wiring the control service, continued *)

(** X2: whatever reactor it is given, [build_control_amp_service] returns a
    [ControlAMPService] that is not started, holding a started
    [ClusterStateService] and a started [ConfigurationPersistenceService]
    over a temporary directory made for it; it keeps the cleanups already
    registered and adds, in this order, the stop of the cluster state
    service and the stop of the persistence service it returns. *)
Theorem built_services_started_and_cleaned_up
    (test_case : TestCase) (reactor : option Reactor) :
  let service := (build_control_amp_service test_case reactor).1 in
  let test_case' := (build_control_amp_service test_case reactor).2 in
  cas_running service = false
  ∧ css_running (cas_cluster_state service) = true
  ∧ cps_running (cas_configuration_service service) = true
  ∧ cps_path (cas_configuration_service service) = temporary_directories test_case
  ∧ temporary_directories test_case' = S (temporary_directories test_case)
  ∧ cleanups test_case'
    = cleanups test_case
      ++ [stop_cluster_state (cas_cluster_state service);
          stop_persistence (cas_configuration_service service)].
Proof.
  destruct reactor; simpl; repeat split; by rewrite <- (assoc_L (++)).
Qed.

Lemma build_allocates (test_case : TestCase) (reactor : option Reactor) :
  allocated test_case < allocated (build_control_amp_service test_case reactor).2.
Proof. destruct reactor; simpl; lia. Qed.

(** X3: services built with [reactor=None] at two moments of a test never
    share a clock, a temporary directory or an endpoint reactor, provided
    nothing between the two calls reuses an object or a directory. *)
Theorem later_build_shares_nothing
    (earlier later : TestCase)
    (Hobjects :
       allocated (build_control_amp_service earlier None).2 ≤ allocated later)
    (Hdirectories :
       temporary_directories (build_control_amp_service earlier None).2
       ≤ temporary_directories later) :
  let first := (build_control_amp_service earlier None).1 in
  let second := (build_control_amp_service later None).1 in
  cas_reactor first ≠ cas_reactor second
  ∧ cps_path (cas_configuration_service first)
    ≠ cps_path (cas_configuration_service second)
  ∧ endpoint_reactor (cas_endpoint first) ≠ endpoint_reactor (cas_endpoint second).
Proof.
  simpl in *. split; [|split].
  - intros [= Heq]. lia.
  - lia.
  - intros [= Heq]. lia.
Qed.

Lemma later_build_shares_nothing_witness :
  let earlier := {| allocated := 0; temporary_directories := 0; cleanups := [] |} in
  let later := (build_control_amp_service earlier None).2 in
  allocated (build_control_amp_service earlier None).2 ≤ allocated later
  ∧ temporary_directories (build_control_amp_service earlier None).2
    ≤ temporary_directories later
  ∧ cas_reactor (build_control_amp_service earlier None).1
    ≠ cas_reactor (build_control_amp_service later None).1.
Proof.
  split; [simpl; lia|]. split; [simpl; lia|].
  apply (later_build_shares_nothing
           {| allocated := 0; temporary_directories := 0; cleanups := [] |}
           (build_control_amp_service
              {| allocated := 0; temporary_directories := 0; cleanups := [] |} None).2);
    simpl; lia.
Defined.

(** X4: given a reactor, [make_loopback_control_client] returns the service
    [build_control_amp_service] builds over that reactor and a client whose
    command locator belongs to a [ControlAMP] on that same service and
    reactor; the test case is left as [build_control_amp_service] leaves
    it. *)
Theorem loopback_client_bound_to_service (test_case : TestCase) (r : Reactor) :
  let '(service, client, test_case') :=
    make_loopback_control_client test_case (Some r) in
  service = (build_control_amp_service test_case (Some r)).1
  ∧ test_case' = (build_control_amp_service test_case (Some r)).2
  ∧ cas_reactor service = r
  ∧ css_reactor (cas_cluster_state service) = r
  ∧ cps_reactor (cas_configuration_service service) = r
  ∧ command_locator client
    = locator {| amp_reactor := Some (cas_reactor service);
                 amp_control_amp_service := service |}.
Proof. simpl. repeat split. Qed.

(** X5: given [None] as reactor, [make_loopback_control_client] returns a
    service over a new [Clock], while the [ControlAMP] behind the client's
    locator is constructed with [None]: the substitution of a clock made
    inside [build_control_amp_service] does not reach it. *)
Theorem loopback_client_without_reactor (test_case : TestCase) :
  let '(service, client, _) := make_loopback_control_client test_case None in
  cas_reactor service = Clock (allocated test_case)
  ∧ command_locator client
    = locator {| amp_reactor := None; amp_control_amp_service := service |}
  ∧ ∀ amp, command_locator client = locator amp →
           amp_reactor amp ≠ Some (cas_reactor service).
Proof.
  simpl. split; [done|]. split; [done|]. by intros amp [= <-].
Qed.

(** ** Keyword arguments of [lease_strategy] *)

Lemma bind_lease_keywords_known
    (kwargs : list (string * uuid_strategy)) (bound : lease_strategy_parameters) :
  Forall (fun kw => known_keyword kw.1) kwargs →
  NoDup kwargs.*1 →
  ∃ params, bind_lease_keywords kwargs bound = Ok params.
Proof.
  intros Hknown. revert bound.
  induction Hknown as [|[keyword strategy] kwargs Hk _ IH]; intros bound; simpl in *.
  - by eexists.
  - intros [Hfresh Hnodup]%NoDup_cons.
    rewrite (decide_False (P := keyword ∈ kwargs.*1)) by done.
    destruct Hk as [->| ->].
    + rewrite decide_True by done. by apply IH.
    + rewrite decide_False by done. rewrite decide_True by done. by apply IH.
Qed.

Lemma bind_lease_keywords_ok
    (kwargs : list (string * uuid_strategy)) (bound params : lease_strategy_parameters) :
  bind_lease_keywords kwargs bound = Ok params →
  Forall (fun kw => known_keyword kw.1) kwargs ∧ NoDup kwargs.*1.
Proof.
  revert bound. induction kwargs as [|[keyword strategy] kwargs IH]; intros bound; simpl.
  - intros _. split; constructor.
  - destruct (decide (keyword ∈ kwargs.*1)) as [|Hfresh]; [discriminate|].
    repeat case_decide; [| |discriminate].
    + intros [Hknown Hnodup]%IH. split.
      * constructor; [by left|done].
      * by apply NoDup_cons.
    + intros [Hknown Hnodup]%IH. split.
      * constructor; [by right|done].
      * by apply NoDup_cons.
Qed.

Lemma bind_lease_keywords_raises
    (kwargs : list (string * uuid_strategy)) (bound : lease_strategy_parameters)
    (e : exception) :
  bind_lease_keywords kwargs bound = Raise e → ∃ msg, e = TypeError msg.
Proof.
  revert bound. induction kwargs as [|[keyword strategy] kwargs IH]; intros bound; simpl.
  - discriminate.
  - repeat case_decide.
    + intros [= <-]. by eexists.
    + apply IH.
    + apply IH.
    + intros [= <-]. by eexists.
Qed.

(** What a successful binding leaves in each parameter: the strategy passed
    under the parameter's name, or else what was bound before. *)
Lemma bind_lease_keywords_bound
    (kwargs : list (string * uuid_strategy)) (bound params : lease_strategy_parameters) :
  NoDup kwargs.*1 →
  bind_lease_keywords kwargs bound = Ok params →
  (∀ s, ("dataset_id"%string, s) ∈ kwargs → param_dataset_id params = s)
  ∧ ("dataset_id"%string ∉ kwargs.*1 → param_dataset_id params = param_dataset_id bound)
  ∧ (∀ s, ("node_id"%string, s) ∈ kwargs → param_node_id params = s)
  ∧ ("node_id"%string ∉ kwargs.*1 → param_node_id params = param_node_id bound).
Proof.
  revert bound. induction kwargs as [|[keyword strategy] kwargs IH]; intros bound; simpl.
  - intros _ [= <-]. repeat split; try done; intros s Hs; by apply elem_of_nil in Hs.
  - intros [Hfresh Hnodup]%NoDup_cons.
    rewrite (decide_False (P := keyword ∈ kwargs.*1)) by done. intros Hbind.
    repeat case_decide; [| |discriminate]; subst keyword;
      destruct (IH _ Hnodup Hbind) as (Hd & Hd' & Hn & Hn'); simpl in *.
    + split; [|split; [|split]].
      * intros s [[= ->]|Hin]%elem_of_cons; [by apply Hd'|].
        exfalso. apply Hfresh. apply list_elem_of_fmap. by exists ("dataset_id"%string, s).
      * intros Hnot. exfalso. apply Hnot. by left.
      * intros s [[=]|Hin]%elem_of_cons. by apply Hn.
      * intros [_ Hnot]%not_elem_of_cons. by apply Hn'.
    + split; [|split; [|split]].
      * intros s [[=]|Hin]%elem_of_cons. by apply Hd.
      * intros [_ Hnot]%not_elem_of_cons. by apply Hd'.
      * intros s [[= ->]|Hin]%elem_of_cons; [by apply Hn'|].
        exfalso. apply Hfresh. apply list_elem_of_fmap. by exists ("node_id"%string, s).
      * intros Hnot. exfalso. apply Hnot. by left.
Qed.

(** X6: [lease_strategy] draws a lease exactly when every keyword it is
    called with is [dataset_id] or [node_id] and no keyword is given twice;
    every other call raises [TypeError]. *)
Theorem lease_strategy_accepts_known_keywords
    (kwargs : list (string * uuid_strategy)) (draws : LeaseDraws) :
  (Forall (fun kw => known_keyword kw.1) kwargs ∧ NoDup kwargs.*1 ↔
   ∃ lease, lease_strategy kwargs draws = Ok lease)
  ∧ ∀ e, lease_strategy kwargs draws = Raise e → ∃ msg, e = TypeError msg.
Proof.
  unfold lease_strategy. split; [split|].
  - intros [Hknown Hnodup].
    destruct (bind_lease_keywords_known kwargs lease_strategy_defaults Hknown Hnodup)
      as [params ->].
    by eexists.
  - intros [lease Hlease].
    destruct (bind_lease_keywords kwargs lease_strategy_defaults) as [params|e] eqn:Hbind;
      [|discriminate].
    by eapply bind_lease_keywords_ok.
  - intros e.
    destruct (bind_lease_keywords kwargs lease_strategy_defaults) as [params|e'] eqn:Hbind;
      [discriminate|].
    intros [= <-]. by eapply bind_lease_keywords_raises.
Qed.

(** X7: in a call that gives no keyword twice, a lease drawn by
    [lease_strategy] has the dataset id (node id) of [st.just] when that is
    passed as [dataset_id] ([node_id]), takes it from the random source when
    the keyword is left out, and always takes its expiration from the random
    source. *)
Theorem lease_strategy_fields
    (kwargs : list (string * uuid_strategy)) (draws : LeaseDraws) (lease : Lease)
    (Hcall : NoDup kwargs.*1)
    (Hdrawn : lease_strategy kwargs draws = Ok lease) :
  (∀ u, ("dataset_id"%string, st_just u) ∈ kwargs → dataset_id lease = u)
  ∧ ("dataset_id"%string ∉ kwargs.*1 → dataset_id lease = random_dataset_id draws)
  ∧ (∀ u, ("node_id"%string, st_just u) ∈ kwargs → node_id lease = u)
  ∧ ("node_id"%string ∉ kwargs.*1 → node_id lease = random_node_id draws)
  ∧ expiration lease = random_expiration draws.
Proof.
  unfold lease_strategy in Hdrawn.
  destruct (bind_lease_keywords kwargs lease_strategy_defaults) as [params|e] eqn:Hbind;
    [|discriminate].
  simpl in Hdrawn. injection Hdrawn as <-.
  destruct (bind_lease_keywords_bound _ _ _ Hcall Hbind) as (Hd & Hd' & Hn & Hn').
  simpl. split; [|split; [|split; [|split]]].
  - intros u Hu. by rewrite (Hd _ Hu).
  - intros Hnot. by rewrite (Hd' Hnot).
  - intros u Hu. by rewrite (Hn _ Hu).
  - intros Hnot. by rewrite (Hn' Hnot).
  - done.
Qed.

Lemma lease_strategy_fields_witness :
  let kwargs := [("node_id"%string, st_just 2%N); ("dataset_id"%string, st_just 10%N)] in
  let draws := {| random_dataset_id := 77%N; random_node_id := 88%N;
                  random_expiration := 5%Z |} in
  let lease := {| dataset_id := 10%N; node_id := 2%N; expiration := 5%Z |} in
  NoDup kwargs.*1
  ∧ lease_strategy kwargs draws = Ok lease
  ∧ expiration lease = random_expiration draws.
Proof.
  assert (NoDup [("node_id"%string, st_just 2%N); ("dataset_id"%string, st_just 10%N)].*1)
    as Hcall.
  { simpl. apply NoDup_cons. split; [|apply NoDup_singleton].
    intros [H|H]%elem_of_cons; [discriminate|by apply elem_of_nil in H]. }
  split; [exact Hcall|]. split; [reflexivity|].
  exact (proj2 (proj2 (proj2 (proj2
    (lease_strategy_fields _
       {| random_dataset_id := 77%N; random_node_id := 88%N; random_expiration := 5%Z |}
       {| dataset_id := 10%N; node_id := 2%N; expiration := 5%Z |}
       Hcall eq_refl))))).
Defined.

(** ** The loop filling [dataset_id_node_mapping], on any list of nodes *)

Lemma record_node_manifest (mapping : gmap UUID UUID) (node : Node) (ds : UUID) :
  is_Some (manifestations node !! ds) →
  record_node mapping node !! ds = Some (uuid node).
Proof.
  intros [man Hman]. unfold record_node.
  assert (ds ∈ (map_to_list (manifestations node)).*1) as Hin.
  { apply list_elem_of_fmap. exists (ds, man). split; [done|].
    by apply elem_of_map_to_list. }
  revert mapping Hin. generalize (map_to_list (manifestations node)).*1.
  induction l as [|k ks IH]; intros mapping Hin; simpl.
  - by apply elem_of_nil in Hin.
  - destruct (decide (ds ∈ ks)) as [Hks|Hks]; [by apply IH|].
    apply elem_of_cons in Hin as [->|Hin]; [|done].
    clear IH. revert mapping. induction ks as [|k' ks IH]; intros mapping; simpl.
    + apply lookup_insert_eq.
    + apply not_elem_of_cons in Hks as [Hne Hks].
      rewrite insert_insert_ne by done. by apply IH.
Qed.

Lemma record_node_not_manifest (mapping : gmap UUID UUID) (node : Node) (ds : UUID) :
  manifestations node !! ds = None →
  record_node mapping node !! ds = mapping !! ds.
Proof.
  intros Hnone. unfold record_node.
  assert (ds ∉ (map_to_list (manifestations node)).*1) as Hnotin.
  { intros ([k v] & -> & Hin%elem_of_map_to_list)%list_elem_of_fmap.
    simpl in Hnone. congruence. }
  revert mapping Hnotin. generalize (map_to_list (manifestations node)).*1.
  induction l as [|k ks IH]; intros mapping Hnotin; simpl; [done|].
  apply not_elem_of_cons in Hnotin as [Hne Hnotin].
  rewrite IH by done. by rewrite lookup_insert_ne.
Qed.

(** X8: for any list of nodes, the loop binds a dataset id exactly when some
    node of the list manifests it, and binds it to the uuid of the last
    such node of the list. *)
Theorem mapping_binds_last_manifesting_node (node_list : list Node) (ds : UUID) :
  match dataset_id_node_mapping node_list !! ds with
  | Some u =>
      ∃ before n after,
        node_list = before ++ n :: after
        ∧ uuid n = u
        ∧ is_Some (manifestations n !! ds)
        ∧ Forall (fun n' => manifestations n' !! ds = None) after
  | None => Forall (fun n => manifestations n !! ds = None) node_list
  end.
Proof.
  unfold dataset_id_node_mapping.
  induction node_list as [|a l IH] using rev_ind; simpl.
  - rewrite lookup_empty. constructor.
  - rewrite foldl_app. simpl.
    destruct (manifestations a !! ds) as [man|] eqn:Ha.
    + rewrite record_node_manifest by (rewrite Ha; by eexists).
      exists l, a, []. rewrite Ha. split; [done|]. split; [done|].
      split; [by eexists|constructor].
    + rewrite record_node_not_manifest by done.
      destruct (foldl record_node ∅ l !! ds) as [u|].
      * destruct IH as (before & n & after & -> & Hu & Hman & Hafter).
        exists before, n, (after ++ [a]).
        split; [by rewrite <- (assoc_L (++))|]. split; [done|]. split; [done|].
        apply Forall_app. split; [done|]. by constructor.
      * apply Forall_app. split; [done|]. by constructor.
Qed.

(** ** Choosing the items to lease *)

Lemma py_getitem_in_range {A : Type} (l : list A) (i : Z) :
  (0 ≤ i ≤ Z.of_nat (length l) - 1)%Z →
  ∃ a, py_getitem l i = Ok a ∧ l !! Z.to_nat i = Some a.
Proof.
  intros Hi. unfold py_getitem.
  rewrite (decide_False (P := (i < 0)%Z)) by lia.
  rewrite decide_True by lia.
  destruct (l !! Z.to_nat i) as [a|] eqn:Ha; [by eexists|].
  apply lookup_ge_None in Ha. lia.
Qed.

Lemma iteration_order_length
    (dict_items : gmap UUID UUID → list (UUID * UUID)) (mapping : gmap UUID UUID) :
  iteration_order dict_items → length (dict_items mapping) = size mapping.
Proof. intros Horder. by rewrite (Horder mapping), length_map_to_list. Qed.

Lemma selected_items_positions
    (dict_items : gmap UUID UUID → list (UUID * UUID)) (mapping : gmap UUID UUID)
    (lease_indexes : list Z) :
  iteration_order dict_items →
  (∀ i, i ∈ lease_indexes → (0 ≤ i ≤ Z.of_nat (size mapping) - 1)%Z) →
  ∃ pairs,
    selected_items dict_items mapping lease_indexes = Ok pairs
    ∧ Forall2 (fun i pair => dict_items mapping !! Z.to_nat i = Some pair)
              lease_indexes pairs.
Proof.
  intros Horder. induction lease_indexes as [|i lease_indexes IH]; intros Hrange; simpl.
  - exists []. split; [done|constructor].
  - destruct (py_getitem_in_range (dict_items mapping) i) as (item & -> & Hitem).
    { rewrite iteration_order_length by done. apply Hrange. by left. }
    destruct IH as (pairs & -> & Hpairs).
    { intros j Hj. apply Hrange. by right. }
    simpl. exists (item :: pairs). split; [done|]. by constructor.
Qed.

(** X9: whatever the order in which the dictionary lists its items, indexes
    between 0 and [len(mapping) - 1] never raise [IndexError]: the generator
    yields one binding of the mapping for each index, and distinct indexes
    yield distinct dataset ids. *)
Theorem selection_within_bounds
    (dict_items : gmap UUID UUID → list (UUID * UUID)) (mapping : gmap UUID UUID)
    (lease_indexes : list Z)
    (Horder : iteration_order dict_items)
    (Hrange : ∀ i, i ∈ lease_indexes → (0 ≤ i ≤ Z.of_nat (size mapping) - 1)%Z)
    (Hdistinct : NoDup lease_indexes) :
  ∃ pairs,
    selected_items dict_items mapping lease_indexes = Ok pairs
    ∧ length pairs = length lease_indexes
    ∧ (∀ ds u, (ds, u) ∈ pairs → mapping !! ds = Some u)
    ∧ NoDup pairs.*1.
Proof.
  destruct (selected_items_positions dict_items mapping lease_indexes Horder Hrange)
    as (pairs & Hsel & Hpos).
  exists pairs. split; [done|]. split; [by erewrite <- Forall2_length|].
  split; [by eapply selected_items_are_bindings|].
  assert (NoDup (dict_items mapping).*1) as Hkeys.
  { rewrite (Horder mapping). apply NoDup_fst_map_to_list. }
  clear Hsel. induction Hpos as [|i pair lease_indexes pairs Hi Hpos IH]; simpl.
  - constructor.
  - apply NoDup_cons in Hdistinct as [Hfresh Hdistinct].
    apply NoDup_cons. split.
    + intros (other & Hfst & Hother)%list_elem_of_fmap.
      apply list_elem_of_lookup in Hother as [k Hk].
      destruct (Forall2_lookup_r _ _ _ _ _ Hpos Hk) as (j & Hj & Hjpos).
      assert (Z.to_nat i = Z.to_nat j) as Heq.
      { eapply (NoDup_lookup _ _ _ pair.1 Hkeys); rewrite list_lookup_fmap.
        - by rewrite Hi.
        - rewrite Hjpos. simpl. by rewrite Hfst. }
      apply Hfresh. apply list_elem_of_lookup_2 in Hj as Hjin.
      assert (0 ≤ i)%Z by (apply Hrange; by left).
      assert (0 ≤ j)%Z by (apply Hrange; by right).
      by replace i with j by lia.
    + apply IH; [|done]. intros j Hj. apply Hrange. by right.
Qed.

Lemma selection_within_bounds_witness :
  let mapping : gmap UUID UUID := {[10%N := 1%N; 20%N := 2%N]} in
  iteration_order map_to_list
  ∧ (∀ i, i ∈ [1%Z; 0%Z] → (0 ≤ i ≤ Z.of_nat (size mapping) - 1)%Z)
  ∧ NoDup [1%Z; 0%Z]
  ∧ ∃ pairs, selected_items map_to_list mapping [1%Z; 0%Z] = Ok pairs
             ∧ length pairs = 2.
Proof.
  intros mapping.
  assert (iteration_order map_to_list) as Horder by (intros m; reflexivity).
  assert (∀ i, i ∈ [1%Z; 0%Z] → (0 ≤ i ≤ Z.of_nat (size mapping) - 1)%Z) as Hrange.
  { assert (size mapping = 2) as -> by (vm_compute; reflexivity).
    intros i [->|[->|Hi]%elem_of_cons]%elem_of_cons; [lia|lia|].
    by apply elem_of_nil in Hi. }
  assert (NoDup [1%Z; 0%Z]) as Hdistinct.
  { apply NoDup_cons. split; [|apply NoDup_singleton].
    intros [H|H]%elem_of_cons; [discriminate|by apply elem_of_nil in H]. }
  split; [exact Horder|]. split; [exact Hrange|]. split; [exact Hdistinct|].
  destruct (selection_within_bounds map_to_list mapping [1%Z; 0%Z]
              Horder Hrange Hdistinct) as (pairs & Hsel & Hlen & _).
  exists pairs. split; [exact Hsel|exact Hlen].
Defined.

(** ** The body of [deployment_strategy] on any list of nodes *)

(** X10: run on any list of nodes, with in-range lease indexes, the body of
    [deployment_strategy] returns a deployment only when no lease index is
    drawn, and that deployment has no lease; as soon as one index is drawn
    it raises [TypeError], since [lease_strategy] is called with the keyword
    [node_uuid], for which it has no parameter. *)
Theorem body_returns_only_without_leases
    (dict_items : gmap UUID UUID → list (UUID * UUID)) (node_list : list Node) (d : Draws)
    (Horder : iteration_order dict_items)
    (Hrange : ∀ i, i ∈ lease_indexes_of (dataset_id_node_mapping node_list) d →
                   (0 ≤ i ≤ Z.of_nat (size (dataset_id_node_mapping node_list)) - 1)%Z) :
  (lease_indexes_of (dataset_id_node_mapping node_list) d = []
   ∧ deployment_of_nodes dict_items node_list d
     = Ok {| nodes := nodes_by_uuid node_list;
             leases := ∅;
             persistent_state := PersistentState_empty |})
  ∨ (lease_indexes_of (dataset_id_node_mapping node_list) d ≠ []
     ∧ deployment_of_nodes dict_items node_list d
       = Raise (TypeError "unexpected keyword argument node_uuid")).
Proof.
  unfold deployment_of_nodes.
  destruct (lease_indexes_of (dataset_id_node_mapping node_list) d)
    as [|i lease_indexes] eqn:Hindexes.
  - left. by split.
  - right. split; [done|].
    destruct (py_getitem_in_range (dict_items (dataset_id_node_mapping node_list)) i)
      as (item & Hitem & _).
    { rewrite iteration_order_length by done. apply Hrange. by left. }
    by rewrite (draw_leases_raises _ _ _ _ _ _ _ Hitem).
Qed.

Lemma body_returns_only_without_leases_witness :
  let node := {| uuid := 1%N; manifestations := {[10%N := {| primary := true |}]} |} in
  let d := {| drawn_node_uuids := [1%N];
              drawn_lease_indexes := [0%Z];
              drawn_lease := fun _ => {| random_dataset_id := 0%N;
                                         random_node_id := 0%N;
                                         random_expiration := 0%Z |} |} in
  iteration_order map_to_list
  ∧ (∀ i, i ∈ lease_indexes_of (dataset_id_node_mapping [node]) d →
          (0 ≤ i ≤ Z.of_nat (size (dataset_id_node_mapping [node])) - 1)%Z)
  ∧ deployment_of_nodes map_to_list [node] d
    = Raise (TypeError "unexpected keyword argument node_uuid").
Proof.
  intros node d.
  assert (iteration_order map_to_list) as Horder by (intros m; reflexivity).
  assert (∀ i, i ∈ lease_indexes_of (dataset_id_node_mapping [node]) d →
               (0 ≤ i ≤ Z.of_nat (size (dataset_id_node_mapping [node])) - 1)%Z)
    as Hrange.
  { assert (lease_indexes_of (dataset_id_node_mapping [node]) d = [0%Z]) as ->
      by (vm_compute; reflexivity).
    assert (size (dataset_id_node_mapping [node]) = 1) as ->
      by (vm_compute; reflexivity).
    intros i [->|Hi]%elem_of_cons; [lia|]. by apply elem_of_nil in Hi. }
  split; [exact Horder|]. split; [exact Hrange|].
  destruct (body_returns_only_without_leases map_to_list [node] d Horder Hrange)
    as [[Hnone _]|[_ Hraise]]; [|exact Hraise].
  exfalso. revert Hnone. vm_compute. discriminate.
Defined.

(** ** How many nodes a drawn deployment has *)

Lemma comprehension_size {A : Type} (key : A → UUID) (m : gmap UUID A) (l : list A) :
  size (foldl (fun (m : gmap UUID A) x => <[key x := x]> m) m l) ≤ size m + length l.
Proof.
  revert m. induction l as [|a l IH]; intros m; simpl; [lia|].
  etrans; [apply IH|].
  destruct (m !! key a) as [x|] eqn:Hm.
  - rewrite map_size_insert_Some by done. lia.
  - rewrite map_size_insert_None by done. lia.
Qed.

Lemma uuid_node_strategy (us : list UUID) : uuid <$> (node_strategy <$> us) = us.
Proof. induction us as [|u us IH]; [done|]. by rewrite !fmap_cons, IH. Qed.

(** X11: a deployment drawn with [min_number_of_nodes] has at most
    [max(min_number_of_nodes, 1000)] nodes and, when at least one node is
    asked for, at least one; it has as many nodes as were drawn, hence at
    least [min_number_of_nodes], when the uuids drawn are pairwise
    distinct. *)
Theorem drawn_node_count
    (dict_items : gmap UUID UUID → list (UUID * UUID))
    (min_number_of_nodes : nat) (d : Draws)
    (Hdraw : drawable min_number_of_nodes d) :
  ∃ dep : Deployment,
    deployment_strategy dict_items d = Ok dep
    ∧ size (nodes dep) ≤ max min_number_of_nodes 1000
    ∧ (1 ≤ min_number_of_nodes → 1 ≤ size (nodes dep))
    ∧ (NoDup (drawn_node_uuids d) →
       size (nodes dep) = length (drawn_node_uuids d)
       ∧ min_number_of_nodes ≤ size (nodes dep)).
Proof.
  destruct Hdraw as [[Hmin Hmax] _]. simpl in Hmin, Hmax.
  eexists. split; [apply deployment_strategy_value|]. simpl.
  split; [|split].
  - pose proof (comprehension_size uuid ∅ (node_strategy <$> drawn_node_uuids d)) as Hsize.
    rewrite map_size_empty, length_fmap in Hsize.
    unfold nodes_by_uuid. lia.
  - intros Hone.
    destruct (drawn_node_uuids d) as [|u us _] eqn:Hus using rev_ind;
      [simpl in Hmin; lia|].
    assert (nodes_by_uuid (node_strategy <$> us ++ [u]) !! u = Some (node_strategy u))
      as Hlast.
    { rewrite fmap_app. simpl.
      apply (comprehension_last_wins uuid ∅ _ [] (node_strategy u)).
      simpl. apply not_elem_of_nil. }
    assert (size (nodes_by_uuid (node_strategy <$> us ++ [u])) ≠ 0) as Hne.
    { apply map_size_non_empty_iff. intros Hempty.
      rewrite Hempty, lookup_empty in Hlast. discriminate. }
    lia.
  - intros Hnodup.
    assert (size (nodes_by_uuid (node_strategy <$> drawn_node_uuids d))
            = length (drawn_node_uuids d)) as Hsize.
    { rewrite <- size_dom, nodes_by_uuid_dom, uuid_node_strategy.
      by apply size_list_to_set. }
    split; [done|]. lia.
Qed.

Lemma drawn_node_count_witness :
  let d := {| drawn_node_uuids := [1%N; 2%N];
              drawn_lease_indexes := [];
              drawn_lease := fun _ => {| random_dataset_id := 0%N;
                                         random_node_id := 0%N;
                                         random_expiration := 0%Z |} |} in
  drawable 1 d
  ∧ ∃ dep : Deployment,
      deployment_strategy map_to_list d = Ok dep ∧ size (nodes dep) ≤ 1000.
Proof.
  intros d.
  assert (drawable 1 d) as Hdraw.
  { unfold drawable. rewrite lease_indexes_of_drawn_nodes. simpl.
    split; [lia|]. split; [constructor|]. intros i Hi. by apply elem_of_nil in Hi. }
  split; [exact Hdraw|].
  destruct (drawn_node_count map_to_list 1 d Hdraw) as (dep & Hdep & Hsize & _).
  exists dep. split; [exact Hdep|exact Hsize].
Defined.

(** ** Leases built from the mapping *)



(** ** Which items are chosen, and in which order the dictionary lists them *)









